(** * baleen.utils.decorators

    A shallow embedding of [baleen/utils/decorators.py]: the [memoized]
    property, the [timeit] wrapper, the [timeout] decorator built on
    SIGALRM, and the [reraise] decorator that translates exceptions.

    Python callables are effectful, so a wrapped callable is a small
    program ([prog]) run against an explicit process state ([world]); the
    wrappers of the module are written in the same language, statement by
    statement. *)

From stdpp Require Import gmap strings list pretty.

Set Warnings "-register-all".
Local Open Scope string_scope.

(** ** Exception classes

    The classes the module can meet: the builtin hierarchy it relies on,
    the two names imported from [baleen.exceptions], and any further class
    given by its name and its base (single inheritance). *)

Inductive kind : Type :=
  | BaseException
  | Exception
  | KeyboardInterrupt
  | SystemExit
  | GeneratorExit
  | OSError
  | TimeoutError
  | LookupError
  | KeyError
  | ValueError
  | AttributeError
  | BaleenError
  | BaleenTimeout
  | UserClass (name : string) (base : kind).

Global Instance kind_eq_dec : EqDecision kind.
Proof. solve_decision. Defined.

(** Method resolution order of a class: the class, then its bases up to
    [BaseException].  The builtin part is Python 3's.

    Modelled from the spec: [baleen/exceptions.py] is not among the
    sources; [BaleenError] is taken as the base of the application's error
    taxonomy (a direct subclass of [Exception]) and [BaleenTimeout] as its
    timeout-specific member. *)
Fixpoint mro (k : kind) : list kind :=
  match k with
  | BaseException => [BaseException]
  | Exception => [Exception; BaseException]
  | KeyboardInterrupt => [KeyboardInterrupt; BaseException]
  | SystemExit => [SystemExit; BaseException]
  | GeneratorExit => [GeneratorExit; BaseException]
  | OSError => [OSError; Exception; BaseException]
  | TimeoutError => [TimeoutError; OSError; Exception; BaseException]
  | LookupError => [LookupError; Exception; BaseException]
  | KeyError => [KeyError; LookupError; Exception; BaseException]
  | ValueError => [ValueError; Exception; BaseException]
  | AttributeError => [AttributeError; Exception; BaseException]
  | BaleenError => [BaleenError; Exception; BaseException]
  | BaleenTimeout => [BaleenTimeout; BaleenError; Exception; BaseException]
  | UserClass name base => UserClass name base :: mro base
  end.

Definition issubclass (k c : kind) : bool := bool_decide (c ∈ mro k).

(** The second argument of [isinstance] and the operand of an [except]
    clause: a class, or a tuple of such (tuples may nest). *)
Inductive classinfo : Type :=
  | Cls (c : kind)
  | Tup (cs : list classinfo).

Fixpoint matches (k : kind) (ci : classinfo) : bool :=
  match ci with
  | Cls c => issubclass k c
  | Tup cs => existsb (matches k) cs
  end.

(** ** Exception objects

    [exc_id] is the identity of the object ([id(e)]); [exc_message] is the
    one string the object was built from ([e.args[0]]); [exc_original] is
    the [original] attribute that [reraise] sets, absent on any other
    object. *)
Inductive exc : Type :=
  Exc { exc_id : nat;
        exc_class : kind;
        exc_message : string;
        exc_original : option exc }.

Definition isinstance (e : exc) (ci : classinfo) : bool :=
  matches (exc_class e) ci.

(** [repr] of a string, which is what [KeyError] prints its argument
    with.  A character of a string stands for the code point of its number
    (below 256).  The text is put between single quotes, or between double
    quotes when it holds a single quote and no double quote; the quote in
    use and the backslash are escaped with a backslash, tab, newline and
    carriage return are written [\t], [\n], [\r], and any other character
    that does not print (controls, 127 to 160, 173) as [\x] and two
    hexadecimal digits. *)
Definition chr (n : nat) : Ascii.ascii := Ascii.ascii_of_nat n.

Definition hex_digit (n : nat) : Ascii.ascii :=
  if (n <? 10)%nat then chr (48 + n) else chr (87 + n).

Definition unprintable (n : nat) : bool :=
  (n <? 32)%nat || (n =? 127)%nat || ((128 <=? n)%nat && (n <=? 160)%nat)
  || (n =? 173)%nat.

Definition repr_char (quote : nat) (c : Ascii.ascii) : string :=
  let n := Ascii.nat_of_ascii c in
  if (n =? quote)%nat || (n =? 92)%nat then String (chr 92) (String c "")
  else if (n =? 9)%nat then String (chr 92) "t"
  else if (n =? 10)%nat then String (chr 92) "n"
  else if (n =? 13)%nat then String (chr 92) "r"
  else if unprintable n then
    String (chr 92)
      (String (chr 120)
         (String (hex_digit (n / 16)) (String (hex_digit (n mod 16)) "")))
  else String c "".

Fixpoint occurs (n : nat) (s : string) : bool :=
  match s with
  | "" => false
  | String c s' => (Ascii.nat_of_ascii c =? n)%nat || occurs n s'
  end.

Fixpoint repr_chars (quote : nat) (s : string) : string :=
  match s with
  | "" => ""
  | String c s' => repr_char quote c +:+ repr_chars quote s'
  end.

Definition repr (s : string) : string :=
  let quote := if occurs 39 s && negb (occurs 34 s) then 34 else 39 in
  String (chr quote) (repr_chars quote s +:+ String (chr quote) "").

(** [str(e)] for an exception built from one string: the string itself
    by [BaseException.__str__], and its [repr] for [KeyError] and the
    classes that derive from it.  (A class given by name and base is taken
    not to define a [__str__] of its own.) *)
Definition str (e : exc) : string :=
  if issubclass (exc_class e) KeyError then repr (exc_message e)
  else exc_message e.

(** [error.original = e] *)
Definition set_original (error e : exc) : exc :=
  Exc (exc_id error) (exc_class error) (exc_message error) (Some e).

(** How a call ends: it returns, it raises, or the process was terminated
    by a signal while it ran (nothing returns to any caller). *)
Inductive outcome (R : Type) : Type :=
  | Returned (r : R)
  | Raised (e : exc)
  | Killed.
Arguments Returned {R} r.
Arguments Raised {R} e.
Arguments Killed {R}.

(** ** Process state: SIGALRM and the object allocator *)

(** What can be installed for SIGALRM.  [Timeout_error seconds] is the
    closure [_timeout_error] that [timeout(seconds)] builds; [PyHandler]
    is any other Python handler, which returns or raises. *)
Inductive handler : Type :=
  | SIG_DFL
  | SIG_IGN
  | Timeout_error (seconds : nat)
  | PyHandler (raises : option exc).

Global Instance handler_inhabited : Inhabited handler := populate SIG_DFL.

Record world : Type := World {
  sig_handler : handler;   (* disposition of SIGALRM *)
  sig_alarm : nat;         (* seconds until the pending alarm, 0 if none *)
  sig_fired : nat;         (* how many alarms have expired so far *)
  next_id : nat            (* identity of the next object created *)
}.

Definition set_handler (h : handler) (w : world) : world :=
  World h (sig_alarm w) (sig_fired w) (next_id w).

Definition set_alarm (n : nat) (w : world) : world :=
  World (sig_handler w) n (sig_fired w) (next_id w).

Definition expire (w : world) : world :=
  World (sig_handler w) 0 (S (sig_fired w)) (next_id w).

(** [klass(message)]: a new object of the class. *)
Definition instantiate (klass : kind) (message : string) (w : world)
  : exc * world :=
  (Exc (next_id w) klass message None,
   World (sig_handler w) (sig_alarm w) (sig_fired w) (S (next_id w))).

(** The text of the error raised by [_timeout_error].  The literal is
    continued over two source lines with a backslash, so the indentation of
    the second line (eight blanks) is part of it. *)
Definition timeout_message (seconds : nat) : string :=
  "Operation did not finish within " +:+ "        " +:+
  pretty seconds +:+ " seconds".

(** What running the installed handler does to the interrupted code. *)
Inductive delivery : Type :=
  | Resumed
  | Interrupted (e : exc)
  | Terminated.

(** [_timeout_error(signal, frame)] raises [TimeoutError(...)]: the module
    binds no such name (it imports [BaleenError] and [BaleenTimeout]), so
    the name is the builtin one. *)
Definition _timeout_error (seconds : nat) (w : world) : exc * world :=
  instantiate TimeoutError (timeout_message seconds) w.

Definition deliver (w : world) : delivery * world :=
  match sig_handler w with
  | SIG_DFL => (Terminated, w)
  | SIG_IGN => (Resumed, w)
  | Timeout_error seconds =>
      let '(e, w') := _timeout_error seconds w in (Interrupted e, w')
  | PyHandler None => (Resumed, w)
  | PyHandler (Some e) => (Interrupted e, w)
  end.

(** ** Callables

    The body of a callable, as far as this module can observe it: it
    returns or raises, lets time pass, calls [signal.alarm] and
    [signal.signal] (each gives back the previous setting), creates
    exception objects, and guards a block with [try] / [except] / [else]. *)
Inductive prog (R : Type) : Type :=
  | Return (r : R)
  | Raise (e : exc)
  | Sleep (d : nat) (k : prog R)
  | Alarm (n : nat) (k : nat → prog R)
  | Signal (h : handler) (k : handler → prog R)
  | New (klass : kind) (message : string) (k : exc → prog R)
  | Try (body : prog R) (except_ : exc → prog R) (else_ : R → prog R).
Arguments Return {R} r.
Arguments Raise {R} e.
Arguments Sleep {R} d k.
Arguments Alarm {R} n k.
Arguments Signal {R} h k.
Arguments New {R} klass message k.
Arguments Try {R} body except_ else_.

(** [try: body finally: cleanup], where [cleanup] runs on both ways out
    and then lets the result or the exception through. *)
Definition Finally {R} (body : prog R) (cleanup : prog R → prog R) : prog R :=
  Try body (λ e, cleanup (Raise e)) (λ r, cleanup (Return r)).

Section Run.
Context {R : Type}.

(** Time only passes in [Sleep].  A pending alarm that expires within
    the sleep is delivered there: the handler runs in the sleeping frame,
    and what it raises is raised from that point of the callable. *)
Fixpoint run (p : prog R) (w : world) : outcome R * world :=
  match p with
  | Return r => (Returned r, w)
  | Raise e => (Raised e, w)
  | Sleep d k =>
      if bool_decide (0 < sig_alarm w ≤ d) then
        match deliver (expire w) with
        | (Resumed, w') => run k w'
        | (Interrupted e, w') => (Raised e, w')
        | (Terminated, w') => (Killed, w')
        end
      else run k (set_alarm (sig_alarm w - d) w)
  | Alarm n k => run (k (sig_alarm w)) (set_alarm n w)
  | Signal h k => run (k (sig_handler w)) (set_handler h w)
  | New klass message k =>
      let '(e, w') := instantiate klass message w in run (k e) w'
  | Try body except_ else_ =>
      match run body w with
      | (Returned r, w') => run (else_ r) w'
      | (Raised e, w') => run (except_ e) w'
      | (Killed, w') => (Killed, w')
      end
  end.

(** The callable never calls [signal.alarm]. *)
Fixpoint alarm_free (p : prog R) : Prop :=
  match p with
  | Return _ | Raise _ => True
  | Sleep _ k => alarm_free k
  | Alarm _ _ => False
  | Signal _ k => ∀ h, alarm_free (k h)
  | New _ _ k => ∀ e, alarm_free (k e)
  | Try body except_ else_ =>
      alarm_free body ∧ (∀ e, alarm_free (except_ e)) ∧
      (∀ r, alarm_free (else_ r))
  end.

(** The callable never calls [signal.signal]. *)
Fixpoint signal_free (p : prog R) : Prop :=
  match p with
  | Return _ | Raise _ => True
  | Sleep _ k => signal_free k
  | Alarm _ k => ∀ n, signal_free (k n)
  | Signal _ _ => False
  | New _ _ k => ∀ e, signal_free (k e)
  | Try body except_ else_ =>
      signal_free body ∧ (∀ e, signal_free (except_ e)) ∧
      (∀ r, signal_free (else_ r))
  end.
End Run.

(** ** [timeout] *)

Section Timeout.
Context {A R : Type}.

(** [timeout(seconds)(func)(args)]: [signal.signal(SIGALRM, _timeout_error)],
    [signal.alarm(seconds)], then the call inside [try], with
    [signal.alarm(0)] as its [finally].  [seconds] is the count handed to
    [alarm], which takes it unsigned. *)
Definition timeout_wrapper (seconds : nat) (func : A → prog R) (args : A)
  : prog R :=
  Signal (Timeout_error seconds) (λ _,
  Alarm seconds (λ _,
  Finally (func args) (λ k, Alarm 0 (λ _, k)))).
End Timeout.

(** The state in which the wrapped callable starts: handler installed,
    alarm armed. *)
Definition armed (seconds : nat) (w : world) : world :=
  set_alarm seconds (set_handler (Timeout_error seconds) w).

(** ** [reraise] *)

(** [message or str(e)]: the empty string is false, like [None]. *)
Definition message_or (message : option string) (s : string) : string :=
  match message with
  | None => s
  | Some "" => s
  | Some m => m
  end.

Section Reraise.
Context {A R : Type}.

(** [reraise(klass, message, trap, ignore)(func)(args)].  An
    exception that the [except trap] clause does not match leaves the
    [try] statement as it came. *)
Definition reraise_wrapper (klass : kind) (message : option string)
    (trap ignore : classinfo) (func : A → prog R) (args : A) : prog R :=
  Try (func args)
    (λ e,
      if isinstance e trap then
        if isinstance e ignore then Raise e
        else New klass (message_or message (str e)) (λ error,
             Raise (set_original error e))
      else Raise e)
    Return.

(** The defaults of the signature:
    [klass=BaleenError, message=None, trap=Exception, ignore=()]. *)
Definition reraise_default (func : A → prog R) (args : A) : prog R :=
  reraise_wrapper BaleenError None (Cls Exception) (Tup []) func args.
End Reraise.

(** ** [timeit] *)

(** Modelled from the spec: [baleen.utils.timez.Timer] is not among the
    sources.  It is the scoped stopwatch of the spec: entering the [with]
    block reads the clock into [started]; leaving it, by return or by
    exception, reads the clock into [finished] and sets [elapsed] to the
    difference.  Clock readings are counted in ticks. *)
Record Timer : Type := MkTimer {
  started : option Z;
  finished : option Z;
  elapsed : Z
}.

Definition Timer_new : Timer := MkTimer None None 0.

Definition Timer_enter (timer : Timer) (now : Z) : Timer :=
  MkTimer (Some now) (finished timer) (elapsed timer).

Definition Timer_exit (timer : Timer) (now : Z) : Timer :=
  MkTimer (started timer) (Some now) (now - default now (started timer)).

Section Timeit.
Context {A R : Type}.

(** [timeit(func)(args)].  The callable is run against the clock: given
    the reading at which it starts, it ends at some other reading. *)
Definition timer_wrapper (func : A → Z → outcome R * Z) (args : A) (now : Z)
  : outcome (R * Timer) * Z :=
  let timer := Timer_enter Timer_new now in
  match func args now with
  | (Returned result, now') =>
      (Returned (result, Timer_exit timer now'), now')
  | (Raised e, now') => (Raised e, now')
  | (Killed, now') => (Killed, now')
  end.
End Timeit.

(** A callable on the clock.  [run_clock] is [run] with the clock reading
    carried along: the clock moves on by the seconds slept, and a sleep cut
    short by the alarm ends when the alarm was due. *)
Section Clock.
Context {R : Type}.

End Clock.


(** ** [memoized] *)

Section Memoized.
Context {V : Type}.

(** The decorated method: its [__name__], and what calling it on an
    instance does.  An instance is its attribute dictionary, which the
    method may read and change. *)
Record getter : Type := Getter {
  fget_name : string;
  fget_call : gmap string V → outcome V * gmap string V
}.

(** ['_{0}'.format(fget.__name__)] *)
Definition attr_name (fget : getter) : string := "_" +:+ fget_name fget.

Definition hasattr (self : gmap string V) (name : string) : bool :=
  bool_decide (is_Some (self !! name)).

Definition setattr (self : gmap string V) (name : string) (v : V)
  : gmap string V :=
  <[name := v]> self.

Definition getattr (self : gmap string V) (name : string) : outcome V :=
  match self !! name with
  | Some v => Returned v
  | None => Raised (Exc 0 AttributeError name None)
  end.

(** [del self.name] *)
Definition delattr (self : gmap string V) (name : string) : gmap string V :=
  delete name self.

(** Reading the property calls [fget_memoized(self)].  [calls] counts the
    invocations of [fget] made so far. *)
Definition fget_memoized (fget : getter) (self : gmap string V) (calls : nat)
  : outcome V * gmap string V * nat :=
  if negb (hasattr self (attr_name fget)) then
    match fget_call fget self with
    | (Returned v, self') =>
        let self'' := setattr self' (attr_name fget) v in
        (getattr self'' (attr_name fget), self'', S calls)
    | (Raised e, self') => (Raised e, self', S calls)
    | (Killed, self') => (Killed, self', S calls)
    end
  else (getattr self (attr_name fget), self, calls).

(** [n] reads of the property, one after the other. *)
Fixpoint reads (n : nat) (fget : getter) (self : gmap string V) (calls : nat)
  : list (outcome V) * gmap string V * nat :=
  match n with
  | 0 => ([], self, calls)
  | S n' =>
      let '(r, self', calls') := fget_memoized fget self calls in
      let '(rs, self'', calls'') := reads n' fget self' calls' in
      (r :: rs, self'', calls'')
  end.
End Memoized.
Arguments getter V : clear implicits.

(** ** Shapes of callables

    Two further descriptions of a callable, used to say when a deadline
    can and cannot reach the caller. *)

Section Shapes.
Context {R : Type}.

(** The callable has no [try] statement: what is raised inside it leaves
    it. *)
Fixpoint try_free (p : prog R) : Prop :=
  match p with
  | Return _ | Raise _ => True
  | Sleep _ k => try_free k
  | Alarm _ k => ∀ n, try_free (k n)
  | Signal _ k => ∀ h, try_free (k h)
  | New _ _ k => ∀ e, try_free (k e)
  | Try _ _ _ => False
  end.

(** The callable arms no alarm and sleeps at most [t] seconds in all,
    whichever way it goes. *)
Fixpoint within (t : nat) (p : prog R) : Prop :=
  match p with
  | Return _ | Raise _ => True
  | Sleep d k => (d ≤ t)%nat ∧ within (t - d) k
  | Alarm _ _ => False
  | Signal _ k => ∀ h, within t (k h)
  | New _ _ k => ∀ e, within t (k e)
  | Try body except_ else_ =>
      ∃ t1 t2, (t1 + t2 ≤ t)%nat ∧ within t1 body ∧
               (∀ e, within t2 (except_ e)) ∧ (∀ r, within t2 (else_ r))
  end.
End Shapes.

(** The error object that [_timeout_error] creates in state [w]. *)
Definition timeout_exc (seconds : nat) (w : world) : exc :=
  (_timeout_error seconds w).1.

(** * Properties *)

(** ** Classes *)

Lemma issubclass_refl (k : kind) : issubclass k k = true.
Proof.
  unfold issubclass. apply bool_decide_eq_true.
  destruct k; simpl; apply list_elem_of_here.
Qed.

Lemma issubclass_BaseException (k : kind) : issubclass k BaseException = true.
Proof.
  unfold issubclass. apply bool_decide_eq_true.
  induction k; simpl; try (repeat constructor; fail).
  by apply list_elem_of_further.
Qed.

(** No builtin class derives from an application class. *)
Lemma TimeoutError_not_Baleen :
  issubclass TimeoutError BaleenTimeout = false ∧
  issubclass TimeoutError BaleenError = false.
Proof. split; reflexivity. Qed.

Lemma string_length_app (s t : string) :
  String.length (s +:+ t) = String.length s + String.length t.
Proof. induction s as [| a s IH]; simpl; [done | by rewrite IH]. Qed.

Lemma string_app_cancel_r (t s1 s2 : string) :
  s1 +:+ t = s2 +:+ t → s1 = s2.
Proof.
  revert s2. induction s1 as [| a s1 IH]; intros [| b s2] H.
  - done.
  - apply (f_equal String.length) in H.
    rewrite !string_length_app in H. simpl in H. lia.
  - apply (f_equal String.length) in H.
    rewrite !string_length_app in H. simpl in H. lia.
  - simpl in H. injection H as -> H. f_equal. by apply IH.
Qed.

(** The decimal text of the limit tells the limit. *)
Lemma timeout_message_inj (s1 s2 : nat) :
  timeout_message s1 = timeout_message s2 → s1 = s2.
Proof.
  unfold timeout_message. intros H.
  apply (inj (String.app _)) in H. apply (inj (String.app _)) in H.
  apply string_app_cancel_r in H.
  by apply (inj pretty) in H.
Qed.

(** ** The state left by a callable *)

Section RunFacts.
Context {R : Type}.
Implicit Types (p : prog R) (w : world).

Lemma deliver_handler w : sig_handler (deliver w).2 = sig_handler w.
Proof. unfold deliver. by destruct (sig_handler w) as [| | s | [e|]] eqn:E. Qed.

Lemma deliver_alarm w : sig_alarm (deliver w).2 = sig_alarm w.
Proof. unfold deliver. by destruct (sig_handler w) as [| | s | [e|]] eqn:E. Qed.

Lemma deliver_fired w : sig_fired (deliver w).2 = sig_fired w.
Proof. unfold deliver. by destruct (sig_handler w) as [| | s | [e|]] eqn:E. Qed.

Lemma deliver_Terminated w w' :
  deliver w = (Terminated, w') → sig_handler w = SIG_DFL.
Proof.
  unfold deliver. destruct (sig_handler w) as [| | s | [e|]]; simpl; congruence.
Qed.

(** With no alarm pending, a callable that arms none sees none expire. *)
Lemma run_alarm_free p : ∀ w,
  alarm_free p → sig_alarm w = 0 →
  sig_alarm (run p w).2 = 0 ∧ sig_fired (run p w).2 = sig_fired w.
Proof.
  induction p as [r | e | d k IH | n k IH | h k IH | c m k IH
                 | body IHb ex IHe el IHl]; intros w Hfree Hw; simpl in *.
  - done.
  - done.
  - rewrite bool_decide_eq_false_2 by lia.
    destruct (IH (set_alarm (sig_alarm w - d) w) Hfree) as [? ?];
      [simpl; lia | done].
  - done.
  - apply (IH (sig_handler w) (set_handler h w) (Hfree _) Hw).
  - apply (IH (Exc (next_id w) c m None) (instantiate c m w).2 (Hfree _) Hw).
  - destruct Hfree as (Hb & He & Hl).
    destruct (IHb w Hb Hw) as [Ha Hf].
    destruct (run body w) as [[r | e |] w1]; simpl in *.
    + destruct (IHl r w1 (Hl r) Ha) as [? ?]. split; [done | congruence].
    + destruct (IHe e w1 (He e) Ha) as [? ?]. split; [done | congruence].
    + done.
Qed.

(** A callable that installs no handler leaves the installed one, and
    under a handler other than the default action it is not killed. *)
Lemma run_signal_free p : ∀ w,
  signal_free p →
  sig_handler (run p w).2 = sig_handler w ∧
  (sig_handler w ≠ SIG_DFL → (run p w).1 ≠ Killed).
Proof.
  induction p as [r | e | d k IH | n k IH | h k IH | c m k IH
                 | body IHb ex IHe el IHl]; intros w Hfree; simpl in *.
  - done.
  - done.
  - case_bool_decide.
    + pose proof (deliver_handler (expire w)) as Hh.
      pose proof (deliver_Terminated (expire w)) as Ht.
      destruct (deliver (expire w)) as [[| e |] w1]; simpl in *.
      * destruct (IH w1 Hfree) as [? Hk]. split; [congruence |].
        intros ?. apply Hk. congruence.
      * done.
      * split; [done |]. intros Hne _. by apply Hne, (Ht w1).
    + apply (IH (set_alarm (sig_alarm w - d) w) Hfree).
  - apply (IH (sig_alarm w) (set_alarm n w) (Hfree _)).
  - done.
  - apply (IH (Exc (next_id w) c m None) (instantiate c m w).2 (Hfree _)).
  - destruct Hfree as (Hb & He & Hl).
    destruct (IHb w Hb) as [Hh Hk].
    destruct (run body w) as [[r | e |] w1]; simpl in *.
    + destruct (IHl r w1 (Hl r)) as [? Hk']. split; [congruence |].
      intros ?. apply Hk'. congruence.
    + destruct (IHe e w1 (He e)) as [? Hk']. split; [congruence |].
      intros ?. apply Hk'. congruence.
    + split; [done |]. intros Hne. by apply Hk.
Qed.
End RunFacts.

(** ** [timeout] *)

Section TimeoutFacts.
Context {A R : Type}.
Implicit Types (func : A → prog R) (args : A) (w : world).

(** The wrapper, one statement after the other: install, arm, call, and
    on the way out disarm. *)
Lemma run_timeout_wrapper seconds func args w :
  run (timeout_wrapper seconds func args) w =
  match run (func args) (armed seconds w) with
  | (Returned r, w1) => (Returned r, set_alarm 0 w1)
  | (Raised e, w1) => (Raised e, set_alarm 0 w1)
  | (Killed, w1) => (Killed, w1)
  end.
Proof.
  unfold timeout_wrapper, Finally, armed. simpl.
  by destruct (run (func args) _) as [[r | e |] w1].
Qed.

(** A callable that is still asleep when the limit is reached is
    interrupted by the error that [_timeout_error] builds. *)
Lemma timeout_deadline_fires seconds d (k : prog R) args w :
  0 < seconds ≤ d →
  run (timeout_wrapper seconds (λ _, Sleep d k) args) w =
  (Raised (Exc (next_id w) TimeoutError (timeout_message seconds) None),
   World (Timeout_error seconds) 0 (S (sig_fired w)) (S (next_id w))).
Proof.
  intros Hd. rewrite run_timeout_wrapper. unfold armed. simpl.
  by rewrite bool_decide_eq_true_2.
Qed.
End TimeoutFacts.

(** C1 (fails on the code): a call that outlasts its limit of one second.
    The error that reaches the caller is the builtin [TimeoutError], an
    [OSError]; it is neither a [BaleenTimeout] nor a [BaleenError], the
    classes the module imports.  Its text does name the limit. *)
Theorem timeout_raises_builtin_TimeoutError :
  ∃ e w',
    run (timeout_wrapper 1 (λ _ : unit, Sleep 2 (Return 0)) tt)
        (World SIG_DFL 0 0 0) = (Raised e, w') ∧
    exc_class e = TimeoutError ∧
    isinstance e (Cls BaleenTimeout) = false ∧
    isinstance e (Cls BaleenError) = false ∧
    isinstance e (Cls OSError) = true ∧
    exc_message e = "Operation did not finish within         1 seconds".
Proof.
  eexists _, _. split.
  - apply timeout_deadline_fires. lia.
  - by vm_compute.
Qed.

(** C2: whichever way a deadline-enforced call comes back to its caller
    (the callable returned, it raised, or the deadline interrupted it), no
    alarm is pending afterwards; and code that arms no alarm of its own then
    sees none expire. *)
Theorem timeout_wrapper_disarms {A R Q : Type} (seconds : nat)
    (func : A → prog R) (args : A) (w w' : world) (res : outcome R) :
  run (timeout_wrapper seconds func args) w = (res, w') →
  res ≠ Killed →
  sig_alarm w' = 0 ∧
  ∀ q : prog Q, alarm_free q →
    sig_alarm (run q w').2 = 0 ∧ sig_fired (run q w').2 = sig_fired w'.
Proof.
  rewrite run_timeout_wrapper. intros Hrun Hres.
  assert (sig_alarm w' = 0) as Hw'.
  { destruct (run (func args) _) as [[r | e |] w1];
      injection Hrun as <- <-; done. }
  split; [done |]. intros q Hq. by apply run_alarm_free.
Qed.

Lemma timeout_wrapper_disarms_witness :
  let call := timeout_wrapper 1 (λ _ : unit, Sleep 2 (Return 0)) tt in
  let w := World SIG_IGN 5 0 0 in
  (run call w).1 ≠ Killed ∧
  sig_alarm (run call w).2 = 0 ∧
  ∀ q : prog bool, alarm_free q →
    sig_alarm (run q (run call w).2).2 = 0 ∧
    sig_fired (run q (run call w).2).2 = sig_fired (run call w).2.
Proof.
  intros call w. split; [by vm_compute |].
  apply (timeout_wrapper_disarms 1 (λ _ : unit, Sleep 2 (Return 0)) tt w
           (run call w).2 (run call w).1).
  - reflexivity.
  - by vm_compute.
Defined.

(** C9: every call installs [_timeout_error] for SIGALRM before the
    callable starts and nothing puts the previous handler back: when the
    callable installs no handler itself, the call comes back with
    [_timeout_error] still installed, whatever was installed before, and
    only the alarm cleared. *)
Theorem timeout_wrapper_leaves_handler {A R : Type} (seconds : nat)
    (func : A → prog R) (args : A) (w : world) :
  signal_free (func args) →
  let res := (run (timeout_wrapper seconds func args) w).1 in
  let w' := (run (timeout_wrapper seconds func args) w).2 in
  sig_handler (armed seconds w) = Timeout_error seconds ∧
  res ≠ Killed ∧
  sig_handler w' = Timeout_error seconds ∧
  (sig_handler w ≠ Timeout_error seconds → sig_handler w' ≠ sig_handler w) ∧
  sig_alarm w' = 0.
Proof.
  intros Hfree res w'. subst res w'. rewrite run_timeout_wrapper.
  destruct (run_signal_free (func args) (armed seconds w) Hfree) as [Hh Hk].
  specialize (Hk ltac:(done)).
  destruct (run (func args) (armed seconds w)) as [[r | e |] w1];
    simpl in *; try done.
  all: repeat split; try done; congruence.
Qed.

Lemma timeout_wrapper_leaves_handler_witness :
  let func := λ _ : unit, Sleep 2 (Alarm 4 (λ _, Return 0)) in
  let w := World (PyHandler None) 5 0 0 in
  signal_free (func tt) ∧
  sig_handler (run (timeout_wrapper 3 func tt) w).2 = Timeout_error 3.
Proof.
  intros func w.
  assert (signal_free (func tt)) as Hfree by (simpl; done).
  split; [exact Hfree |].
  exact (proj1 (proj2 (proj2
    (timeout_wrapper_leaves_handler 3 func tt w Hfree)))).
Defined.

(** ** [reraise] *)

Section ReraiseFacts.
Context {A R : Type}.
Implicit Types (func : A → prog R) (args : A) (w : world) (e : exc).

(** A result passes through. *)
Lemma reraise_returned klass message trap ignore func args w r w1 :
  run (func args) w = (Returned r, w1) →
  run (reraise_wrapper klass message trap ignore func args) w
  = (Returned r, w1).
Proof. intros H. unfold reraise_wrapper. simpl. by rewrite H. Qed.

(** The three ways an exception of the callable leaves the wrapper. *)
Lemma reraise_raised klass message trap ignore func args w e w1 :
  run (func args) w = (Raised e, w1) →
  run (reraise_wrapper klass message trap ignore func args) w =
  if isinstance e trap && negb (isinstance e ignore) then
    (Raised (Exc (next_id w1) klass (message_or message (str e)) (Some e)),
     (instantiate klass (message_or message (str e)) w1).2)
  else (Raised e, w1).
Proof.
  intros H. unfold reraise_wrapper. simpl. rewrite H.
  by destruct (isinstance e trap), (isinstance e ignore).
Qed.
End ReraiseFacts.

Lemma message_or_spec (message : option string) (s : string) :
  (∀ m, message = Some m → m ≠ "" → message_or message s = m) ∧
  (message = None ∨ message = Some "" → message_or message s = s).
Proof.
  split.
  - intros m -> Hm. by destruct m.
  - by intros [-> | ->].
Qed.

(** C3 as written fails where the override is the empty string: the
    callable raises [ValueError("boom")], the override is empty, and the
    translated error says "boom". *)
Lemma reraise_empty_override_counterexample :
  let e := Exc 7 ValueError "boom" None in
  let func := λ _ : unit, (Raise e : prog nat) in
  isinstance e (Cls Exception) = true ∧
  isinstance e (Tup []) = false ∧
  ∃ err w',
    run (reraise_wrapper BaleenError (Some "") (Cls Exception) (Tup [])
           func tt) (World SIG_DFL 0 0 8) = (Raised err, w') ∧
    exc_class err = BaleenError ∧
    exc_original err = Some e ∧
    exc_message err = "boom" ∧
    exc_message err ≠ "".
Proof.
  intros e func. split; [reflexivity |]. split; [reflexivity |].
  eexists _, _. split; [reflexivity |]. by vm_compute.
Qed.

(** C3 (amended): an exception of the callable that the trap set matches
    and the ignore set does not is replaced by a new object of class
    [klass]; its message is the override when one was given and is not
    empty, and the string form of the original when the override is absent
    or empty; its [original] is the object the callable raised. *)
Theorem reraise_translates {A R : Type} (klass : kind)
    (message : option string) (trap ignore : classinfo)
    (func : A → prog R) (args : A) (w w1 : world) (e : exc) :
  run (func args) w = (Raised e, w1) →
  isinstance e trap = true →
  isinstance e ignore = false →
  ∃ err w2,
    run (reraise_wrapper klass message trap ignore func args) w
    = (Raised err, w2) ∧
    exc_class err = klass ∧
    exc_id err = next_id w1 ∧
    (∀ m, message = Some m → m ≠ "" → exc_message err = m) ∧
    (message = None ∨ message = Some "" → exc_message err = str e) ∧
    exc_original err = Some e.
Proof.
  intros Hrun Htrap Hign. eexists _, _. split.
  - rewrite (reraise_raised _ _ _ _ _ _ _ _ _ Hrun), Htrap, Hign. reflexivity.
  - simpl. destruct (message_or_spec message (str e)) as [H1 H2]. done.
Qed.

Lemma reraise_translates_witness :
  let e := Exc 7 ValueError "boom" None in
  let func := λ _ : unit, (Raise e : prog nat) in
  let w := World SIG_DFL 0 0 8 in
  ∃ err w2,
    run (reraise_wrapper BaleenError (Some "failed") (Cls Exception) (Tup [])
           func tt) w = (Raised err, w2) ∧
    exc_class err = BaleenError ∧
    exc_id err = 8 ∧
    (∀ m, Some "failed" = Some m → m ≠ "" → exc_message err = m) ∧
    (Some "failed" = None ∨ Some "failed" = Some "" →
     exc_message err = str e) ∧
    exc_original err = Some e.
Proof.
  intros e func w.
  apply (reraise_translates BaleenError (Some "failed") (Cls Exception)
           (Tup []) func tt w w e); reflexivity.
Defined.

(** C4: an exception of the callable that the ignore set matches comes out
    as the callable raised it (the same object, nothing created), whether
    or not the trap set matches it too. *)
Theorem reraise_ignore_first {A R : Type} (klass : kind)
    (message : option string) (trap ignore : classinfo)
    (func : A → prog R) (args : A) (w w1 : world) (e : exc) :
  run (func args) w = (Raised e, w1) →
  isinstance e ignore = true →
  run (reraise_wrapper klass message trap ignore func args) w = (Raised e, w1).
Proof.
  intros Hrun Hign.
  rewrite (reraise_raised _ _ _ _ _ _ _ _ _ Hrun), Hign.
  by rewrite andb_false_r.
Qed.

Lemma reraise_ignore_first_witness :
  let e := Exc 7 KeyError "k" None in
  let func := λ _ : unit, (Raise e : prog nat) in
  let w := World SIG_DFL 0 0 8 in
  isinstance e (Cls Exception) = true ∧
  isinstance e (Tup [Cls ValueError; Cls KeyError]) = true ∧
  run (reraise_wrapper BaleenError None (Cls Exception)
         (Tup [Cls ValueError; Cls KeyError]) func tt) w = (Raised e, w).
Proof.
  intros e func w. split; [reflexivity |]. split; [reflexivity |].
  apply (reraise_ignore_first BaleenError None (Cls Exception)
           (Tup [Cls ValueError; Cls KeyError]) func tt w w e); reflexivity.
Defined.

(** C5 as written fails in its second half: with the default trap set
    ([Exception]) a [KeyboardInterrupt] raised by the callable is not
    trapped; it reaches the caller as it was raised. *)
Lemma reraise_default_counterexample :
  let e := Exc 7 KeyboardInterrupt "" None in
  let func := λ _ : unit, (Raise e : prog nat) in
  let w := World SIG_DFL 0 0 8 in
  run (func tt) w = (Raised e, w) ∧
  run (reraise_default func tt) w = (Raised e, w) ∧
  ¬ ∃ err w', run (reraise_default func tt) w = (Raised err, w') ∧
              exc_class err = BaleenError.
Proof.
  intros e func w. split; [reflexivity |]. split; [reflexivity |].
  intros (err & w' & Hrun & Hcls). vm_compute in Hrun.
  injection Hrun as <- _. discriminate Hcls.
Qed.

(** C5 (amended): an exception of the callable that the trap set does not
    match comes out as the callable raised it; and with the default
    arguments an exception is trapped, and translated to [BaleenError],
    exactly when its class derives from [Exception]: one that derives from
    [BaseException] only ([KeyboardInterrupt], [SystemExit],
    [GeneratorExit]) comes out as it was raised. *)
Theorem reraise_untrapped_propagates {A R : Type}
    (func : A → prog R) (args : A) (w w1 : world) (e : exc) :
  run (func args) w = (Raised e, w1) →
  (∀ klass message trap ignore,
     isinstance e trap = false →
     run (reraise_wrapper klass message trap ignore func args) w
     = (Raised e, w1)) ∧
  (issubclass (exc_class e) Exception = true →
   ∃ err w2,
     run (reraise_default func args) w = (Raised err, w2) ∧
     exc_class err = BaleenError ∧
     exc_message err = str e ∧
     exc_original err = Some e) ∧
  (issubclass (exc_class e) Exception = false →
   run (reraise_default func args) w = (Raised e, w1)).
Proof.
  intros Hrun. split; [| split].
  - intros klass message trap ignore Htrap.
    by rewrite (reraise_raised _ _ _ _ _ _ _ _ _ Hrun), Htrap.
  - intros Hsub. eexists _, _. split.
    + unfold reraise_default.
      rewrite (reraise_raised _ _ _ _ _ _ _ _ _ Hrun).
      unfold isinstance at 1. simpl. rewrite Hsub. reflexivity.
    + done.
  - intros Hsub. unfold reraise_default.
    rewrite (reraise_raised _ _ _ _ _ _ _ _ _ Hrun).
    unfold isinstance at 1. simpl. by rewrite Hsub.
Qed.

Lemma reraise_untrapped_propagates_witness :
  let e := Exc 7 KeyError "k" None in
  let func := λ _ : unit, (Raise e : prog nat) in
  let w := World SIG_DFL 0 0 8 in
  run (func tt) w = (Raised e, w) ∧
  run (reraise_wrapper BaleenError None (Cls ValueError) (Tup []) func tt) w
  = (Raised e, w).
Proof.
  intros e func w. split; [reflexivity |].
  apply (proj1 (reraise_untrapped_propagates func tt w w e eq_refl)).
  reflexivity.
Defined.

(** ** [timeit] *)

Section ClockFacts.
Context {R : Type}.
Implicit Types (p : prog R) (w : world) (now : Z).


End ClockFacts.



(** An exception of the callable passes through [timeit] unchanged. *)
Lemma timer_wrapper_raised {A R : Type} (func : A → Z → outcome R * Z)
    (args : A) (now now' : Z) (e : exc) :
  func args now = (Raised e, now') →
  timer_wrapper func args now = (Raised e, now').
Proof. intros H. unfold timer_wrapper. by rewrite H. Qed.

(** ** [memoized] *)

Section MemoizedFacts.
Context {V : Type}.
Implicit Types (fget : getter V) (self : gmap string V) (v : V).

Lemma hasattr_Some self name v :
  self !! name = Some v → hasattr self name = true.
Proof. intros H. apply bool_decide_eq_true. by exists v. Qed.

Lemma hasattr_None self name :
  self !! name = None → hasattr self name = false.
Proof.
  intros H. apply bool_decide_eq_false. rewrite H. by intros [? ?].
Qed.

Lemma getattr_setattr self name v :
  getattr (setattr self name v) name = Returned v.
Proof. unfold getattr, setattr. by rewrite lookup_insert_eq. Qed.

(** A read that finds the attribute: its value, and no call. *)
Lemma fget_memoized_stored fget self calls v :
  self !! attr_name fget = Some v →
  fget_memoized fget self calls = (Returned v, self, calls).
Proof.
  intros H. unfold fget_memoized, getattr.
  by rewrite (hasattr_Some _ _ _ H), H.
Qed.

(** A read that does not find it: one call, and the result kept only
    when the call returned. *)
Lemma fget_memoized_absent fget self calls :
  self !! attr_name fget = None →
  fget_memoized fget self calls =
  match fget_call fget self with
  | (Returned v, self') =>
      (Returned v, <[attr_name fget := v]> self', S calls)
  | (Raised e, self') => (Raised e, self', S calls)
  | (Killed, self') => (Killed, self', S calls)
  end.
Proof.
  intros H. unfold fget_memoized. rewrite (hasattr_None _ _ H). simpl.
  destruct (fget_call fget self) as [[v | e |] self']; [| done | done].
  by rewrite getattr_setattr.
Qed.

Lemma reads_stored fget self calls v n :
  self !! attr_name fget = Some v →
  reads n fget self calls = (replicate n (Returned v), self, calls).
Proof.
  intros H. induction n as [| n IH]; simpl; [done |].
  by rewrite (fget_memoized_stored _ _ _ _ H), IH.
Qed.

(** After a read that returned, the attribute is there and holds what
    was returned. *)
Lemma fget_memoized_Returned fget self calls v self1 calls1 :
  fget_memoized fget self calls = (Returned v, self1, calls1) →
  self1 !! attr_name fget = Some v.
Proof.
  destruct (self !! attr_name fget) as [u |] eqn:Hslot.
  - rewrite (fget_memoized_stored _ _ _ _ Hslot). congruence.
  - rewrite (fget_memoized_absent _ _ _ Hslot).
    destruct (fget_call fget self) as [[u | e |] self']; intros [= <- <- <-].
    apply lookup_insert_eq.
Qed.
End MemoizedFacts.

(** C6: take a first read that returned.  If the slot was unset before it,
    that read called the computation once; and however many reads follow,
    none calls it again, each returns the value of the first, and the
    instance stays as the first read left it. *)
Theorem memoized_computes_once {V : Type} (fget : getter V)
    (self self1 : gmap string V) (calls calls1 : nat) (v : V) :
  self !! attr_name fget = None →
  fget_memoized fget self calls = (Returned v, self1, calls1) →
  calls1 = S calls ∧
  ∀ n, reads n fget self1 calls1 = (replicate n (Returned v), self1, calls1).
Proof.
  intros Hslot Hread. split.
  - rewrite (fget_memoized_absent _ _ _ Hslot) in Hread.
    by destruct (fget_call fget self) as [[u | e |] self']; simplify_eq.
  - intros n. apply reads_stored. by eapply fget_memoized_Returned.
Qed.

Lemma memoized_computes_once_witness :
  let fget := Getter "size" (λ self : gmap string nat, (Returned 42, self)) in
  (∅ : gmap string nat) !! attr_name fget = None ∧
  fget_memoized fget ∅ 0 = (Returned 42, {["_size" := 42]}, 1) ∧
  1 = S 0 ∧
  ∀ n, reads n fget {["_size" := 42]} 1
       = (replicate n (Returned 42), {["_size" := 42]}, 1).
Proof.
  intros fget. split; [reflexivity |]. split; [reflexivity |].
  apply (memoized_computes_once fget ∅ {["_size" := 42]} 0 1 42);
    reflexivity.
Defined.

(** C7: a first read whose computation raises, the computation leaving
    the slot alone.  The read raises that exception after one call, the
    wrapper stores nothing (the instance is as the computation left it and
    the slot is still unset), and the next read calls the computation
    again. *)
Theorem memoized_failure_not_stored {V : Type} (fget : getter V)
    (self self' : gmap string V) (calls : nat) (e : exc) :
  self !! attr_name fget = None →
  fget_call fget self = (Raised e, self') →
  self' !! attr_name fget = self !! attr_name fget →
  fget_memoized fget self calls = (Raised e, self', S calls) ∧
  hasattr self' (attr_name fget) = false ∧
  (fget_memoized fget self' (S calls)).2 = S (S calls).
Proof.
  intros Hslot Hcall Hframe. rewrite Hslot in Hframe.
  split; [| split].
  - by rewrite (fget_memoized_absent _ _ _ Hslot), Hcall.
  - by apply hasattr_None.
  - rewrite (fget_memoized_absent _ _ _ Hframe).
    by destruct (fget_call fget self') as [[u | e' |] self''].
Qed.

Lemma memoized_failure_not_stored_witness :
  let e := Exc 3 ValueError "not ready" None in
  let fget := Getter "size" (λ self : gmap string nat,
                match self !! "ready" with
                | None => (Raised e, <["ready" := 1]> self)
                | Some _ => (Returned 42, self)
                end) in
  let self' : gmap string nat := {["ready" := 1]} in
  fget_memoized fget ∅ 0 = (Raised e, self', 1) ∧
  hasattr self' (attr_name fget) = false ∧
  (fget_memoized fget self' 1).2 = 2.
Proof.
  intros e fget self'.
  apply (memoized_failure_not_stored fget ∅ self' 0 e); reflexivity.
Defined.

(** C10: the slot is the attribute ["_" + fget.__name__], and whether that
    attribute is present is all a read looks at.  Present, however it got
    there: no read calls the computation and each returns the attribute's
    value.  Absent, and so after [del]: the read calls the computation. *)
Theorem memoized_slot_is_attribute {V : Type} (fget : getter V)
    (self : gmap string V) (calls : nat) :
  attr_name fget = "_" +:+ fget_name fget ∧
  (∀ v, self !! ("_" +:+ fget_name fget) = Some v →
     ∀ n, reads n fget self calls = (replicate n (Returned v), self, calls)) ∧
  (let self0 := delattr self ("_" +:+ fget_name fget) in
   fget_memoized fget self0 calls =
   match fget_call fget self0 with
   | (Returned v, self') =>
       (Returned v, <["_" +:+ fget_name fget := v]> self', S calls)
   | (Raised e, self') => (Raised e, self', S calls)
   | (Killed, self') => (Killed, self', S calls)
   end).
Proof.
  split; [reflexivity |]. split.
  - intros v Hv n. by apply reads_stored.
  - simpl. apply fget_memoized_absent. apply lookup_delete_eq.
Qed.

Lemma memoized_slot_is_attribute_witness :
  let fget := Getter "size" (λ self : gmap string nat, (Returned 42, self)) in
  let self : gmap string nat := {["_size" := 7]} in
  reads 3 fget self 0 = ([Returned 7; Returned 7; Returned 7], self, 0) ∧
  fget_memoized fget (delattr self "_size") 0
  = (Returned 42, {["_size" := 42]}, 1).
Proof.
  intros fget self.
  destruct (memoized_slot_is_attribute fget self 0) as (_ & Hkept & Hdel).
  split.
  - apply (Hkept 7 eq_refl 3).
  - etrans; [exact Hdel | reflexivity].
Defined.

(** * Further properties *)

Local Open Scope nat_scope.

(** ** More on the state left by a callable *)

Section MoreRunFacts.
Context {R : Type}.
Implicit Types (p : prog R) (w : world).

Lemma set_alarm_same w : set_alarm (sig_alarm w) w = w.
Proof. by destruct w. Qed.

(** The count of expired alarms only grows. *)
Lemma run_fired_mono p : ∀ w, sig_fired w ≤ sig_fired (run p w).2.
Proof.
  induction p as [r | e | d k IH | n k IH | h k IH | c m k IH
                 | body IHb ex IHe el IHl]; intros w; simpl.
  - done.
  - done.
  - case_bool_decide.
    + pose proof (deliver_fired (expire w)) as Hf.
      destruct (deliver (expire w)) as [[| e |] w1]; simpl in *.
      * specialize (IH w1). lia.
      * lia.
      * lia.
    + apply (IH (set_alarm (sig_alarm w - d) w)).
  - apply (IH (sig_alarm w) (set_alarm n w)).
  - apply (IH (sig_handler w) (set_handler h w)).
  - apply (IH (Exc (next_id w) c m None) (instantiate c m w).2).
  - specialize (IHb w).
    destruct (run body w) as [[r | e |] w1]; simpl in *.
    + specialize (IHl r w1). lia.
    + specialize (IHe e w1). lia.
    + done.
Qed.

(** With no alarm pending, a callable that arms none is not killed. *)
Lemma run_alarm_free_alive p : ∀ w,
  alarm_free p → sig_alarm w = 0 → (run p w).1 ≠ Killed.
Proof.
  induction p as [r | e | d k IH | n k IH | h k IH | c m k IH
                 | body IHb ex IHe el IHl]; intros w Hfree Hw; simpl in *.
  - done.
  - done.
  - rewrite bool_decide_eq_false_2 by lia.
    apply (IH (set_alarm (sig_alarm w - d) w) Hfree). simpl. lia.
  - done.
  - apply (IH (sig_handler w) (set_handler h w) (Hfree _) Hw).
  - apply (IH (Exc (next_id w) c m None) (instantiate c m w).2 (Hfree _) Hw).
  - destruct Hfree as (Hb & He & Hl).
    pose proof (IHb w Hb Hw) as Hk.
    destruct (run_alarm_free body w Hb Hw) as [Ha _].
    destruct (run body w) as [[r | e |] w1]; simpl in *.
    + by apply IHl.
    + by apply IHe.
    + done.
Qed.

(** If no alarm expired while the callable ran, the pending alarm made no
    difference to it: it ends as it would have with none pending. *)
Lemma run_unarmed p : ∀ w,
  alarm_free p →
  sig_fired (run p w).2 = sig_fired w →
  run p (set_alarm 0 w) = ((run p w).1, set_alarm 0 (run p w).2).
Proof.
  induction p as [r | e | d k IH | n k IH | h k IH | c m k IH
                 | body IHb ex IHe el IHl]; intros w Hfree Hfired; simpl in *.
  - done.
  - done.
  - case_bool_decide as Hd.
    + exfalso.
      pose proof (deliver_fired (expire w)) as Hf.
      destruct (deliver (expire w)) as [[| e |] w1]; simpl in *.
      * pose proof (run_fired_mono k w1). lia.
      * lia.
      * lia.
    + apply (IH (set_alarm (sig_alarm w - d) w) Hfree Hfired).
  - done.
  - apply (IH (sig_handler w) (set_handler h w) (Hfree _) Hfired).
  - apply (IH (Exc (next_id w) c m None) (instantiate c m w).2
             (Hfree _) Hfired).
  - destruct Hfree as (Hb & He & Hl).
    pose proof (run_fired_mono body w) as Hm.
    specialize (IHb w Hb).
    destruct (run body w) as [[r | e |] w1]; simpl in *.
    + pose proof (run_fired_mono (el r) w1).
      rewrite IHb by lia. apply IHl; [done | lia].
    + pose proof (run_fired_mono (ex e) w1).
      rewrite IHb by lia. apply IHe; [done | lia].
    + by rewrite IHb.
Qed.
End MoreRunFacts.

Section WithinFacts.
Context {R : Type}.
Implicit Types (p : prog R) (w : world).

Lemma within_alarm_free p : ∀ t, within t p → alarm_free p.
Proof.
  induction p as [r | e | d k IH | n k IH | h k IH | c m k IH
                 | body IHb ex IHe el IHl]; intros t Hin; simpl in *.
  - done.
  - done.
  - destruct Hin as [_ Hk]. by eapply IH.
  - done.
  - intros h'. by eapply IH.
  - intros e. by eapply IH.
  - destruct Hin as (t1 & t2 & _ & Hb & He & Hl).
    split; [by eapply IHb |]. split.
    + intros e. by eapply IHe.
    + intros r. by eapply IHl.
Qed.

(** An alarm due later than the callable can sleep does not expire in
    it. *)
Lemma run_within p : ∀ t w,
  within t p → t < sig_alarm w →
  sig_fired (run p w).2 = sig_fired w ∧
  sig_alarm w ≤ sig_alarm (run p w).2 + t.
Proof.
  induction p as [r | e | d k IH | n k IH | h k IH | c m k IH
                 | body IHb ex IHe el IHl]; intros t w Hin Hlt; simpl in *.
  - lia.
  - lia.
  - destruct Hin as [Hd Hk].
    rewrite bool_decide_eq_false_2 by lia.
    destruct (IH (t - d) (set_alarm (sig_alarm w - d) w) Hk) as [Hf Ha];
      simpl in *; [lia |]. split; [done | lia].
  - done.
  - apply (IH (sig_handler w) t (set_handler h w) (Hin _) Hlt).
  - apply (IH (Exc (next_id w) c m None) t (instantiate c m w).2
             (Hin _) Hlt).
  - destruct Hin as (t1 & t2 & Ht & Hb & He & Hl).
    destruct (IHb t1 w Hb) as [Hf Ha]; [lia |].
    destruct (run body w) as [[r | e |] w1]; simpl in *.
    + destruct (IHl r t2 w1 (Hl r)) as [Hf' Ha']; [lia |].
      split; [congruence | lia].
    + destruct (IHe e t2 w1 (He e)) as [Hf' Ha']; [lia |].
      split; [congruence | lia].
    + split; [done | lia].
Qed.

(** Without [try], and with [_timeout_error] installed throughout, an
    alarm that expires in the callable ends it with the timeout error. *)
Lemma run_try_free p : ∀ seconds w,
  try_free p → alarm_free p → signal_free p →
  sig_handler w = Timeout_error seconds →
  sig_fired (run p w).2 = sig_fired w ∨
  (∃ w0, sig_handler w0 = Timeout_error seconds ∧
         (run p w).1 = Raised (timeout_exc seconds w0) ∧
         next_id w0 = exc_id (timeout_exc seconds w0)) ∧
  sig_fired (run p w).2 = S (sig_fired w).
Proof.
  induction p as [r | e | d k IH | n k IH | h k IH | c m k IH
                 | body IHb ex IHe el IHl];
    intros seconds w Htry Halarm Hsig Hh; simpl in *.
  - by left.
  - by left.
  - case_bool_decide.
    + right. unfold deliver. simpl. rewrite Hh. simpl.
      split; [| done]. exists (expire w). by rewrite <- Hh.
    + apply (IH seconds (set_alarm (sig_alarm w - d) w)); done.
  - done.
  - done.
  - apply (IH (Exc (next_id w) c m None) seconds (instantiate c m w).2);
      done.
  - done.
Qed.
End WithinFacts.

(** ** More on [timeout] *)

Section MoreTimeoutFacts.
Context {A R : Type}.
Implicit Types (func : A → prog R) (args : A) (w : world).

(** However the wrapper comes back, it comes back with no alarm
    pending, unless the process was killed. *)
Lemma timeout_wrapper_alarm seconds func args w :
  (run (timeout_wrapper seconds func args) w).1 ≠ Killed →
  sig_alarm (run (timeout_wrapper seconds func args) w).2 = 0.
Proof.
  rewrite run_timeout_wrapper.
  by destruct (run (func args) (armed seconds w)) as [[r | e |] w1].
Qed.

Lemma timeout_wrapper_fired seconds func args w :
  sig_fired (run (timeout_wrapper seconds func args) w).2 =
  sig_fired (run (func args) (armed seconds w)).2.
Proof.
  rewrite run_timeout_wrapper.
  by destruct (run (func args) (armed seconds w)) as [[r | e |] w1].
Qed.

(** The wrapper when its alarm did not expire: the call as it goes with
    [_timeout_error] installed and nothing pending. *)
Lemma timeout_wrapper_not_fired seconds func args w :
  alarm_free (func args) →
  sig_fired (run (func args) (armed seconds w)).2 = sig_fired w →
  run (timeout_wrapper seconds func args) w =
  run (func args) (set_alarm 0 (set_handler (Timeout_error seconds) w)).
Proof.
  intros Hfree Hfired.
  pose proof (run_unarmed (func args) (armed seconds w) Hfree Hfired) as Hu.
  pose proof (run_alarm_free_alive (func args)
                (set_alarm 0 (armed seconds w)) Hfree eq_refl) as Hk.
  rewrite run_timeout_wrapper.
  replace (set_alarm 0 (set_handler (Timeout_error seconds) w))
    with (set_alarm 0 (armed seconds w)) by reflexivity.
  rewrite Hu in Hk |- *. simpl in Hk.
  by destruct (run (func args) (armed seconds w)) as [[r | e |] w1].
Qed.
End MoreTimeoutFacts.

(** X1: when no alarm expires during a deadline-enforced call of a
    callable that arms none itself, the caller gets precisely what the
    callable does (result or exception, and state) when run with
    [_timeout_error] installed and no alarm pending. *)
Theorem timeout_transparent_unless_fired {A R : Type} (seconds : nat)
    (func : A → prog R) (args : A) (w : world) :
  alarm_free (func args) →
  sig_fired (run (timeout_wrapper seconds func args) w).2 = sig_fired w →
  run (timeout_wrapper seconds func args) w =
  run (func args) (set_alarm 0 (set_handler (Timeout_error seconds) w)).
Proof.
  intros Hfree Hfired. rewrite timeout_wrapper_fired in Hfired.
  by apply timeout_wrapper_not_fired.
Qed.

Lemma timeout_transparent_unless_fired_witness :
  let func := λ _ : unit,
    Sleep 2 (Raise (Exc 4 ValueError "bad" None) : prog nat) in
  let w := World SIG_IGN 9 0 5 in
  run (timeout_wrapper 3 func tt) w =
  (Raised (Exc 4 ValueError "bad" None), World (Timeout_error 3) 0 0 5).
Proof.
  intros func w.
  rewrite (timeout_transparent_unless_fired 3 func tt w);
    [reflexivity | simpl; done | reflexivity].
Defined.

(** X2: a callable that arms no alarm and sleeps less than the limit in
    all, whichever way it goes, is never interrupted: no alarm expires,
    and the caller gets what the callable does with no alarm pending. *)
Theorem timeout_within_limit {A R : Type} (seconds t : nat)
    (func : A → prog R) (args : A) (w : world) :
  within t (func args) →
  t < seconds →
  sig_fired (run (timeout_wrapper seconds func args) w).2 = sig_fired w ∧
  run (timeout_wrapper seconds func args) w =
  run (func args) (set_alarm 0 (set_handler (Timeout_error seconds) w)).
Proof.
  intros Hin Hlt.
  destruct (run_within (func args) t (armed seconds w) Hin Hlt) as [Hf _].
  split.
  - by rewrite timeout_wrapper_fired.
  - apply timeout_wrapper_not_fired; [by eapply within_alarm_free | done].
Qed.

Lemma timeout_within_limit_witness :
  let func := λ x : nat,
    Try (Sleep 2 (Raise (Exc 4 ValueError "bad" None)))
        (λ _, Sleep 1 (Return x)) Return in
  let w := World SIG_DFL 0 6 5 in
  within 3 (func 7) ∧
  sig_fired (run (timeout_wrapper 4 func 7) w).2 = 6 ∧
  run (timeout_wrapper 4 func 7) w =
  run (func 7) (World (Timeout_error 4) 0 6 5).
Proof.
  intros func w.
  assert (within 3 (func 7)) as Hin.
  { exists 2, 1. simpl. repeat split; lia. }
  split; [exact Hin |].
  apply (timeout_within_limit 4 3 func 7 w Hin). lia.
Defined.

(** X3: a limit of zero enforces nothing.  [signal.alarm(0)] arms no
    alarm, so a callable that arms none itself runs to its own end however
    long it sleeps, and no alarm expires. *)
Theorem timeout_zero_never_fires {A R : Type}
    (func : A → prog R) (args : A) (w : world) :
  alarm_free (func args) →
  sig_fired (run (timeout_wrapper 0 func args) w).2 = sig_fired w ∧
  run (timeout_wrapper 0 func args) w =
  run (func args) (set_alarm 0 (set_handler (Timeout_error 0) w)).
Proof.
  intros Hfree.
  destruct (run_alarm_free (func args) (armed 0 w) Hfree eq_refl) as [_ Hf].
  split.
  - by rewrite timeout_wrapper_fired.
  - by apply timeout_wrapper_not_fired.
Qed.

Lemma timeout_zero_never_fires_witness :
  let func := λ _ : unit, Sleep 1000 (Return 1) in
  let w := World SIG_DFL 3 0 0 in
  alarm_free (func tt) ∧
  sig_fired (run (timeout_wrapper 0 func tt) w).2 = 0 ∧
  run (timeout_wrapper 0 func tt) w = (Returned 1, World (Timeout_error 0) 0 0 0).
Proof.
  intros func w.
  assert (alarm_free (func tt)) as Hfree by (simpl; done).
  split; [exact Hfree |].
  exact (timeout_zero_never_fires func tt w Hfree).
Defined.

(** X4: deadlines do not nest.  Once a deadline-enforced call made inside
    another has returned, the outer deadline is gone: the outer callable
    can go on sleeping for any time and still returns. *)
Theorem timeout_nested_clobbers_outer {A R : Type} (outer inner d : nat)
    (func : A → prog R) (args : A) (w w1 : world) (r : R) :
  run (timeout_wrapper inner func args) (armed outer w) = (Returned r, w1) →
  run (timeout_wrapper outer
         (λ _ : unit, Try (timeout_wrapper inner func args) Raise
                          (λ r, Sleep d (Return r))) tt) w
  = (Returned r, w1).
Proof.
  intros Hin.
  pose proof (timeout_wrapper_alarm inner func args (armed outer w)) as Ha.
  rewrite Hin in Ha. specialize (Ha ltac:(done)). simpl in Ha.
  rewrite run_timeout_wrapper.
  cbn [run]. rewrite Hin. cbn [run].
  rewrite bool_decide_eq_false_2 by lia.
  destruct w1 as [h a f i]. simpl in *. by subst a.
Qed.

Lemma timeout_nested_clobbers_outer_witness :
  let func := λ _ : unit, Sleep 1 (Return 8) in
  let w := World SIG_DFL 0 0 0 in
  run (timeout_wrapper 5
         (λ _ : unit, Try (timeout_wrapper 2 func tt) Raise
                          (λ r, Sleep 60 (Return r))) tt) w
  = (Returned 8, World (Timeout_error 2) 0 0 0).
Proof.
  intros func w.
  apply (timeout_nested_clobbers_outer 5 2 60 func tt w); reflexivity.
Defined.

(** X5: the deadline reaches the callable as an exception raised inside
    it, so a callable that catches it is not stopped: the [except] clause
    gets the timeout error and the wrapper returns what the clause
    returns. *)
Theorem timeout_swallowed_by_callable {A R : Type} (seconds d : nat)
    (rest : prog R) (g : exc → R) (args : A) (w : world) :
  0 < seconds ≤ d →
  run (timeout_wrapper seconds
         (λ _, Try (Sleep d rest) (λ e, Return (g e)) Return) args) w
  = (Returned (g (Exc (next_id w) TimeoutError (timeout_message seconds) None)),
     World (Timeout_error seconds) 0 (S (sig_fired w)) (S (next_id w))).
Proof.
  intros Hd. rewrite run_timeout_wrapper. unfold armed. simpl.
  by rewrite bool_decide_eq_true_2.
Qed.

Lemma timeout_swallowed_by_callable_witness :
  run (timeout_wrapper 2
         (λ _ : unit, Try (Sleep 5 (Return "done"))
                          (λ e, Return (exc_message e)) Return) tt)
      (World SIG_DFL 0 0 0)
  = (Returned "Operation did not finish within         2 seconds",
     World (Timeout_error 2) 0 1 1).
Proof.
  apply (timeout_swallowed_by_callable 2 5 (Return "done") exc_message tt
           (World SIG_DFL 0 0 0)).
  lia.
Defined.

(** X6: for a callable with no [try] that touches neither the alarm nor
    the handler, a deadline-enforced call ends in one of two ways: no
    alarm expired and the caller gets what the callable does on its own, or
    one alarm expired and the caller gets the builtin [TimeoutError] whose
    text names the limit. *)
Theorem timeout_own_end_or_timeout {A R : Type} (seconds : nat)
    (func : A → prog R) (args : A) (w : world) :
  try_free (func args) → alarm_free (func args) → signal_free (func args) →
  (sig_fired (run (timeout_wrapper seconds func args) w).2 = sig_fired w ∧
   run (timeout_wrapper seconds func args) w =
   run (func args) (set_alarm 0 (set_handler (Timeout_error seconds) w)))
  ∨
  (sig_fired (run (timeout_wrapper seconds func args) w).2 = S (sig_fired w) ∧
   ∃ id, (run (timeout_wrapper seconds func args) w).1 =
         Raised (Exc id TimeoutError (timeout_message seconds) None)).
Proof.
  intros Htry Halarm Hsig.
  destruct (run_try_free (func args) seconds (armed seconds w)
              Htry Halarm Hsig eq_refl) as [Hf | [(w0 & _ & Hr & _) Hf]].
  - left. split.
    + by rewrite timeout_wrapper_fired.
    + by apply timeout_wrapper_not_fired.
  - right. split.
    + by rewrite timeout_wrapper_fired.
    + exists (next_id w0). rewrite run_timeout_wrapper.
      destruct (run (func args) (armed seconds w)) as [[r | e |] w1];
        simpl in *; try done.
Qed.

Lemma timeout_own_end_or_timeout_witness :
  let func := λ d : nat, Sleep d (Return d) in
  try_free (func 4) ∧ alarm_free (func 4) ∧ signal_free (func 4) ∧
  ∃ id, (run (timeout_wrapper 3 func 4) (World SIG_DFL 0 0 0)).1 =
        Raised (Exc id TimeoutError (timeout_message 3) None).
Proof.
  intros func.
  assert (try_free (func 4)) as H1 by (simpl; done).
  assert (alarm_free (func 4)) as H2 by (simpl; done).
  assert (signal_free (func 4)) as H3 by (simpl; done).
  repeat split; try done.
  destruct (timeout_own_end_or_timeout 3 func 4 (World SIG_DFL 0 0 0)
              H1 H2 H3) as [[Hf _] | [_ He]].
  - vm_compute in Hf. discriminate Hf.
  - exact He.
Defined.

(** X7: the handler outlives the call.  After a deadline-enforced call of
    a callable that installs no handler, an alarm armed by any later code
    and expiring while that code sleeps raises the timeout error of the
    finished call, with that call's limit in its text. *)
Theorem timeout_handler_outlives_call {A R Q : Type} (seconds n d : nat)
    (func : A → prog R) (args : A) (w : world) (k : prog Q) :
  signal_free (func args) →
  0 < n ≤ d →
  let w' := (run (timeout_wrapper seconds func args) w).2 in
  run (Alarm n (λ _, Sleep d k)) w' =
  (Raised (Exc (next_id w') TimeoutError (timeout_message seconds) None),
   World (Timeout_error seconds) 0 (S (sig_fired w')) (S (next_id w'))).
Proof.
  intros Hfree Hn w'.
  assert (sig_handler w' = Timeout_error seconds) as Hh.
  { subst w'. rewrite run_timeout_wrapper.
    destruct (run_signal_free (func args) (armed seconds w) Hfree) as [Hh _].
    by destruct (run (func args) (armed seconds w)) as [[r | e |] w1]. }
  simpl. rewrite bool_decide_eq_true_2 by done.
  unfold deliver. simpl. by rewrite Hh.
Qed.

Lemma timeout_handler_outlives_call_witness :
  let func := λ _ : unit, Return 1 in
  let w' := (run (timeout_wrapper 7 func tt) (World SIG_IGN 0 0 0)).2 in
  run (Alarm 1 (λ _, Sleep 2 (Return true))) w' =
  (Raised (Exc 0 TimeoutError (timeout_message 7) None),
   World (Timeout_error 7) 0 1 1).
Proof.
  intros func w'.
  apply (timeout_handler_outlives_call 7 1 2 func tt (World SIG_IGN 0 0 0)
           (Return true)); [simpl; done | lia].
Defined.

(** ** [reraise] and [timeout] together *)

(** X8: stacked either way round, [reraise()] and [timeout(seconds)] hand
    the caller of a call that outlasts its limit the same thing: a
    [BaleenError] carrying the text of the timeout error, whose [original]
    is the builtin [TimeoutError].  Under [timeout] the translation
    happens inside the callable, because that is where the handler
    raises. *)
Theorem reraise_timeout_either_order {A R : Type} (seconds d : nat)
    (k : prog R) (args : A) (w : world) :
  0 < seconds ≤ d →
  let original :=
    Exc (next_id w) TimeoutError (timeout_message seconds) None in
  let error :=
    Exc (S (next_id w)) BaleenError (timeout_message seconds) (Some original) in
  let w' :=
    World (Timeout_error seconds) 0 (S (sig_fired w)) (S (S (next_id w))) in
  run (reraise_default (timeout_wrapper seconds (λ _, Sleep d k)) args) w
  = (Raised error, w') ∧
  run (timeout_wrapper seconds (reraise_default (λ _, Sleep d k)) args) w
  = (Raised error, w').
Proof.
  intros Hd original error w'. split.
  - unfold reraise_default.
    rewrite (reraise_raised _ _ _ _ _ _ _ _ _
               (timeout_deadline_fires seconds d k args w Hd)).
    reflexivity.
  - rewrite run_timeout_wrapper. unfold armed, reraise_default. simpl.
    by rewrite bool_decide_eq_true_2.
Qed.

Lemma reraise_timeout_either_order_witness :
  let original := Exc 0 TimeoutError (timeout_message 1) None in
  let error := Exc 1 BaleenError (timeout_message 1) (Some original) in
  let w := World SIG_DFL 0 0 0 in
  let w' := World (Timeout_error 1) 0 1 2 in
  run (reraise_default (timeout_wrapper 1 (λ _ : unit, Sleep 3 (Return 0))) tt) w
  = (Raised error, w') ∧
  run (timeout_wrapper 1 (reraise_default (λ _ : unit, Sleep 3 (Return 0))) tt) w
  = (Raised error, w').
Proof.
  intros original error w w'.
  apply (reraise_timeout_either_order 1 3 (Return 0) tt w). lia.
Defined.

(** ** More on [reraise] *)

(** X9: [reraise] applied twice translates twice.  When the class raised
    by the inner wrapper is itself trapped by the outer one, the caller
    gets a second new error whose [original] is the first, whose
    [original] is the exception of the callable; the message of each is
    the string form of the one below it (so with a class that prints its
    text quoted, such as [KeyError], the text changes at each level). *)
Theorem reraise_twice_chains {A R : Type} (klass : kind)
    (func : A → prog R) (args : A) (w w1 : world) (e : exc) :
  run (func args) w = (Raised e, w1) →
  issubclass (exc_class e) Exception = true →
  issubclass klass Exception = true →
  let inner := reraise_wrapper klass None (Cls Exception) (Tup []) func in
  let first := Exc (next_id w1) klass (str e) (Some e) in
  let second := Exc (S (next_id w1)) klass (str first) (Some first) in
  (run (reraise_wrapper klass None (Cls Exception) (Tup []) inner args) w).1
  = Raised second.
Proof.
  intros Hrun He Hk inner first second.
  assert (run (inner args) w =
          (Raised first, (instantiate klass (str e) w1).2)) as Hinner.
  { subst inner. rewrite (reraise_raised _ _ _ _ _ _ _ _ _ Hrun).
    unfold isinstance at 1. cbn [matches]. by rewrite He. }
  rewrite (reraise_raised _ _ _ _ _ _ _ _ _ Hinner).
  unfold isinstance at 1. cbn [matches exc_class first]. subst first.
  cbn [exc_class]. by rewrite Hk.
Qed.

Lemma reraise_twice_chains_witness :
  let e := Exc 7 ValueError "boom" None in
  let func := λ _ : unit, (Raise e : prog nat) in
  let w := World SIG_DFL 0 0 8 in
  let inner := reraise_wrapper KeyError None (Cls Exception) (Tup []) func in
  (run (reraise_wrapper KeyError None (Cls Exception) (Tup []) inner tt) w).1
  = Raised (Exc 9 KeyError "'boom'"
              (Some (Exc 8 KeyError "boom" (Some e)))).
Proof.
  intros e func w inner.
  apply (reraise_twice_chains KeyError func tt w w e); reflexivity.
Defined.

(** X10: an outer [reraise] whose ignore set matches the class raised by
    an inner one adds nothing to a translated error: the caller gets the
    inner wrapper's error, object and state as the inner wrapper left
    them. *)
Theorem reraise_outer_ignore_transparent {A R : Type}
    (klass klass' : kind) (message message' : option string)
    (trap ignore trap' ignore' : classinfo)
    (func : A → prog R) (args : A) (w w1 : world) (e : exc) :
  run (func args) w = (Raised e, w1) →
  isinstance e trap = true →
  isinstance e ignore = false →
  matches klass ignore' = true →
  run (reraise_wrapper klass' message' trap' ignore'
         (reraise_wrapper klass message trap ignore func) args) w
  = run (reraise_wrapper klass message trap ignore func args) w.
Proof.
  intros Hrun Htrap Hign Hmatch.
  pose proof (reraise_raised klass message trap ignore func args w e w1 Hrun)
    as Hinner.
  rewrite Htrap, Hign in Hinner. cbn [andb negb] in Hinner.
  rewrite (reraise_raised _ _ _ _ _ _ _ _ _ Hinner), Hinner.
  unfold isinstance. cbn [exc_class]. rewrite Hmatch.
  by rewrite andb_false_r.
Qed.

Lemma reraise_outer_ignore_transparent_witness :
  let e := Exc 7 KeyError "k" None in
  let func := λ _ : unit, (Raise e : prog nat) in
  let w := World SIG_DFL 0 0 8 in
  run (reraise_wrapper (UserClass "FeedError" BaleenError) (Some "feed")
         (Cls Exception) (Cls BaleenError) (reraise_default func) tt) w
  = (Raised (Exc 8 BaleenError "'k'" (Some e)), World SIG_DFL 0 0 9).
Proof.
  intros e func w.
  etrans; [| reflexivity].
  apply (reraise_outer_ignore_transparent BaleenError
           (UserClass "FeedError" BaleenError) None (Some "feed")
           (Cls Exception) (Tup []) (Cls Exception) (Cls BaleenError)
           func tt w w e); reflexivity.
Defined.

(** X11: [reraise] keeps its hands off everything else.  Whatever the
    callable does, the wrapper leaves the SIGALRM handler, the pending
    alarm and the count of expired alarms as the callable left them and
    creates at most one object; and when the callable returns, the caller
    gets that result and state and nothing was created. *)
Theorem reraise_frame {A R : Type} (klass : kind) (message : option string)
    (trap ignore : classinfo) (func : A → prog R) (args : A) (w : world) :
  let w1 := (run (func args) w).2 in
  let w2 := (run (reraise_wrapper klass message trap ignore func args) w).2 in
  sig_handler w2 = sig_handler w1 ∧
  sig_alarm w2 = sig_alarm w1 ∧
  sig_fired w2 = sig_fired w1 ∧
  next_id w1 ≤ next_id w2 ≤ S (next_id w1) ∧
  (∀ r, (run (func args) w).1 = Returned r →
        run (reraise_wrapper klass message trap ignore func args) w
        = (Returned r, w1)) ∧
  ((run (func args) w).1 = Killed →
   run (reraise_wrapper klass message trap ignore func args) w = (Killed, w1)).
Proof.
  intros w1 w2. subst w1 w2.
  destruct (run (func args) w) as [[r | e |] w1] eqn:Hrun.
  - rewrite (reraise_returned _ _ _ _ _ _ _ _ _ Hrun). simpl.
    repeat split; try (intros; simplify_eq; done); lia.
  - rewrite (reraise_raised _ _ _ _ _ _ _ _ _ Hrun).
    destruct (isinstance e trap && negb (isinstance e ignore)); simpl;
      repeat split; try (intros; simplify_eq; done); lia.
  - unfold reraise_wrapper. simpl. rewrite Hrun. simpl.
    repeat split; try (intros; simplify_eq; done); lia.
Qed.

(** X12: to trap everything, trap [BaseException].  With that trap set
    every exception of the callable that the ignore set does not match is
    translated, [KeyboardInterrupt] and [SystemExit] included. *)
Theorem reraise_trap_BaseException {A R : Type} (klass : kind)
    (message : option string) (ignore : classinfo)
    (func : A → prog R) (args : A) (w w1 : world) (e : exc) :
  run (func args) w = (Raised e, w1) →
  isinstance e ignore = false →
  (run (reraise_wrapper klass message (Cls BaseException) ignore func args)
     w).1
  = Raised (Exc (next_id w1) klass (message_or message (str e)) (Some e)).
Proof.
  intros Hrun Hign.
  rewrite (reraise_raised _ _ _ _ _ _ _ _ _ Hrun), Hign.
  unfold isinstance. simpl. by rewrite issubclass_BaseException.
Qed.

Lemma reraise_trap_BaseException_witness :
  let e := Exc 7 KeyboardInterrupt "" None in
  let func := λ _ : unit, (Raise e : prog nat) in
  (run (reraise_wrapper BaleenError (Some "stopped") (Cls BaseException)
          (Tup []) func tt) (World SIG_DFL 0 0 8)).1
  = Raised (Exc 8 BaleenError "stopped" (Some e)).
Proof.
  intros e func.
  apply (reraise_trap_BaseException BaleenError (Some "stopped") (Tup [])
           func tt (World SIG_DFL 0 0 8) (World SIG_DFL 0 0 8) e);
    reflexivity.
Defined.

(** ** More on [memoized] *)

Section MoreMemoizedFacts.
Context {V : Type}.
Implicit Types (fget : getter V) (self : gmap string V) (v : V).

(** One read makes no call or one. *)
Lemma fget_memoized_calls fget self calls :
  calls ≤ (fget_memoized fget self calls).2 ≤ S calls.
Proof.
  unfold fget_memoized.
  destruct (negb (hasattr self (attr_name fget))); simpl; [| lia].
  destruct (fget_call fget self) as [[v | e |] self']; simpl; lia.
Qed.

Lemma reads_S n fget self calls :
  reads (S n) fget self calls =
  let r := fget_memoized fget self calls in
  let rs := reads n fget r.1.2 r.2 in
  (r.1.1 :: rs.1.1, rs.1.2, rs.2).
Proof.
  simpl. destruct (fget_memoized fget self calls) as [[r self'] calls'].
  simpl. by destruct (reads n fget self' calls') as [[rs self''] calls''].
Qed.
End MoreMemoizedFacts.

(** X13: the slot is named after the getter's name and nothing else, so
    two memoized getters of the same name on one instance share it: once
    one of them has been read, reading the other returns the first one's
    value and never calls its own computation. *)
Theorem memoized_same_name_shares_slot {V : Type} (f g : getter V)
    (self self1 : gmap string V) (calls calls1 : nat) (v : V) :
  fget_name f = fget_name g →
  fget_memoized f self calls = (Returned v, self1, calls1) →
  ∀ n, reads n g self1 calls1 = (replicate n (Returned v), self1, calls1).
Proof.
  intros Hname Hread n. apply reads_stored.
  unfold attr_name. rewrite <- Hname.
  by eapply fget_memoized_Returned.
Qed.

Lemma memoized_same_name_shares_slot_witness :
  let f := Getter "size" (λ self : gmap string nat, (Returned 1, self)) in
  let g := Getter "size" (λ self : gmap string nat, (Returned 2, self)) in
  fget_memoized f ∅ 0 = (Returned 1, {["_size" := 1]}, 1) ∧
  reads 2 g {["_size" := 1]} 1
  = ([Returned 1; Returned 1], {["_size" := 1]}, 1).
Proof.
  intros f g. split; [reflexivity |].
  apply (memoized_same_name_shares_slot f g ∅ {["_size" := 1]} 0 1 1);
    reflexivity.
Defined.

(** X14: a read writes the slot and nothing else.  Any other attribute
    is, after the read, what the computation left (when the slot was
    unset and the computation ran) or what it was (when the slot was
    set). *)
Theorem memoized_touches_only_slot {V : Type} (fget : getter V)
    (self : gmap string V) (calls : nat) (name : string) :
  name ≠ attr_name fget →
  (fget_memoized fget self calls).1.2 !! name =
  (if hasattr self (attr_name fget) then self
   else (fget_call fget self).2) !! name.
Proof.
  intros Hname. unfold fget_memoized.
  destruct (hasattr self (attr_name fget)); simpl; [done |].
  destruct (fget_call fget self) as [[v | e |] self']; simpl; [| done | done].
  unfold setattr. by rewrite lookup_insert_ne.
Qed.

Lemma memoized_touches_only_slot_witness :
  let fget := Getter "size" (λ self : gmap string nat,
                (Returned 42, <["hits" := 1]> self)) in
  let self : gmap string nat := {["hits" := 0; "name" := 5]} in
  (fget_memoized fget self 0).1.2 !! "name" = Some 5 ∧
  (fget_memoized fget self 0).1.2 !! "hits" = Some 1.
Proof.
  intros fget self. split.
  - rewrite (memoized_touches_only_slot fget self 0 "name"); [reflexivity |].
    by vm_compute.
  - rewrite (memoized_touches_only_slot fget self 0 "hits"); [reflexivity |].
    by vm_compute.
Defined.

(** X15: failures are not remembered.  A computation that raises every
    time, leaving the slot alone, is called again by every read: after [n]
    reads it has been called [n] more times, every read raised, and the
    slot is still unset. *)
Theorem memoized_retries_every_read {V : Type} (fget : getter V) :
  (∀ s, ∃ e s', fget_call fget s = (Raised e, s') ∧
                s' !! attr_name fget = s !! attr_name fget) →
  ∀ n (self : gmap string V) calls,
    self !! attr_name fget = None →
    (reads n fget self calls).2 = calls + n ∧
    length (reads n fget self calls).1.1 = n ∧
    Forall (λ r, ∃ e, r = Raised e) (reads n fget self calls).1.1 ∧
    (reads n fget self calls).1.2 !! attr_name fget = None.
Proof.
  intros Hfail. induction n as [| n IH]; intros self calls Hslot.
  - simpl. repeat split; [lia | done | done].
  - rewrite reads_S.
    destruct (Hfail self) as (e & s' & Hcall & Hframe).
    rewrite (fget_memoized_absent _ _ _ Hslot), Hcall. cbn zeta. simpl.
    rewrite Hslot in Hframe.
    destruct (IH s' (S calls) Hframe) as (Hc & Hl & Hr & Hs).
    repeat split.
    + lia.
    + by rewrite Hl.
    + constructor; [by exists e | done].
    + done.
Qed.

Lemma memoized_retries_every_read_witness :
  let e := Exc 3 ValueError "down" None in
  let fget := Getter "size" (λ self : gmap string nat, (Raised e, self)) in
  reads 3 fget ∅ 0 = ([Raised e; Raised e; Raised e], ∅, 3) ∧
  (reads 3 fget (∅ : gmap string nat) 0).2 = 0 + 3.
Proof.
  intros e fget. split; [reflexivity |].
  refine (proj1 (memoized_retries_every_read fget _ 3 ∅ 0 eq_refl)).
  intros s. by exists e, s.
Defined.

(** X16: a read calls the computation at most once, whatever the
    instance and the computation: [n] reads give [n] results and make at
    most [n] calls. *)
Theorem memoized_one_call_per_read {V : Type} (fget : getter V) (n : nat)
    (self : gmap string V) (calls : nat) :
  length (reads n fget self calls).1.1 = n ∧
  calls ≤ (reads n fget self calls).2 ≤ calls + n.
Proof.
  revert self calls. induction n as [| n IH]; intros self calls.
  - simpl. lia.
  - rewrite reads_S. cbn zeta. simpl.
    pose proof (fget_memoized_calls fget self calls) as H1.
    destruct (IH (fget_memoized fget self calls).1.2
                 (fget_memoized fget self calls).2) as [Hl Hc].
    split; [by rewrite Hl | lia].
Qed.

(** ** More on [timeit] *)

(** X17: [timeit] changes how a call ends only by pairing a result with
    the timer.  It returns exactly when the callable returns, raises
    exactly what the callable raises (no pair, no timer), and leaves the
    clock where the callable left it. *)
Theorem timer_wrapper_transparent {A R : Type}
    (func : A → Z → outcome R * Z) (args : A) (now : Z) :
  (timer_wrapper func args now).2 = (func args now).2 ∧
  (∀ e, (timer_wrapper func args now).1 = Raised e ↔
        (func args now).1 = Raised e) ∧
  (∀ result, (∃ timer, (timer_wrapper func args now).1
                       = Returned (result, timer)) ↔
             (func args now).1 = Returned result) ∧
  ((timer_wrapper func args now).1 = Killed ↔ (func args now).1 = Killed).
Proof.
  unfold timer_wrapper.
  destruct (func args now) as [[r | e |] now']; simpl.
  - split; [done |]. split; [by split |]. split; [| by split].
    intros result. split.
    + by intros [timer [= <- _]].
    + intros [= <-]. by eexists.
  - split; [done |]. split; [intros e'; split; congruence |].
    split; [| by split]. intros result. split; [by intros [? ?] | done].
  - split; [done |]. split; [by split |]. split; [| by split].
    intros result. split; [by intros [? ?] | done].
Qed.
